(** * SevenSegment: a seven-segment display model and its ASCII renderer

    A shallow embedding of [SevenSegment/SevenSegment.py].

    - Python [str] values are sequences of Unicode code points: [str] is a
      list of code points, and [lit] reads an ASCII literal.
    - [Segment], [Digit] and [Display] instances and the [List[Digit]]
      objects are mutable and shared by reference: they live in a [store]
      and are named by references.  Every function that touches them is
      written in a state-and-exception monad over that store.
    - [Dict[SegmentName, Segment]] is a finite map from segment names to
      references of [Segment] objects.
    - A Python [int] is a [Z]; where the code needs it as an index-sized
      integer, the conversion can raise [OverflowError].
    - Constructors take the next unused reference from a [heap], which pairs
      the store with the count of objects made so far. *)

From Stdlib Require Import ZArith NArith List String Ascii Bool Lia.
From stdpp Require Import base decidable countable option list gmap fin_maps.

(** ** Strings *)

Definition char := N.
Definition str := list char.

(** The code points of an ASCII literal. *)
Definition lit (s : string) : str := map N_of_ascii (list_ascii_of_string s).
Arguments lit s%_string.

(** The empty string. *)
Definition empty : str := [].

Definition LF : char := 10%N.
Definition CR : char := 13%N.
Definition space : char := 32%N.
Definition star : char := 42%N.

(** The line boundaries of [str.splitlines]: \n, \v, \f, \r, \x1c, \x1d,
    \x1e, \x85, U+2028 and U+2029. *)
Definition is_linebreak (c : char) : bool :=
  existsb (N.eqb c) [10; 11; 12; 13; 28; 29; 30; 133; 8232; 8233]%N.

(** [s.splitlines()]: the lines of [s] without their line ends.  \r\n counts
    as one boundary, and a boundary at the very end opens no further line. *)
Fixpoint splitlines (s : str) : list str :=
  match s with
  | [] => []
  | c :: s' =>
      if is_linebreak c then
        [] :: match s' with
              | c' :: s'' =>
                  if (c =? CR)%N && (c' =? LF)%N then splitlines s''
                  else splitlines s'
              | [] => []
              end
      else
        match splitlines s' with
        | [] => [[c]]
        | line :: lines => (c :: line) :: lines
        end
  end.

(** [sep.join(parts)]. *)
Fixpoint join (sep : str) (parts : list str) : str :=
  match parts with
  | [] => []
  | [p] => p
  | p :: ps => p ++ sep ++ join sep ps
  end.

(** [s.split(sep)] for a one-character separator [sep]. *)
Fixpoint split (sep : char) (s : str) : list str :=
  match s with
  | [] => [[]]
  | c :: s' =>
      if (c =? sep)%N then [] :: split sep s'
      else match split sep s' with
           | [] => [[c]]
           | field :: fields => (c :: field) :: fields
           end
  end.

(** ** Exceptions and the exception monad of the pure code *)

Inductive SegmentName :=
  | Top | TopRight | BottomRight | Bottom | BottomLeft | TopLeft | Middle.

Inductive exn :=
  | KeyError (key : SegmentName)
  | IndexError
  | OverflowError.

Inductive result (A : Type) :=
  | Ok (a : A)
  | Raise (e : exn).
Arguments Ok {A} a.
Arguments Raise {A} e.

Definition rbind {A B} (r : result A) (k : A -> result B) : result B :=
  match r with
  | Ok a => k a
  | Raise e => Raise e
  end.

Declare Scope result_scope.
Delimit Scope result_scope with result.
Notation "x <~ c ;; k" := (rbind c (fun x => k))
  (at level 100, c at next level, right associativity) : result_scope.

(** [[f(x) for x in xs]] where [f] may raise. *)
Fixpoint rmap {A B} (f : A -> result B) (xs : list A) : result (list B) :=
  match xs with
  | [] => Ok []
  | x :: xs' =>
      (y <~ f x ;; ys <~ rmap f xs' ;; Ok (y :: ys))%result
  end.

(** [xs[i]] for a non-negative index. *)
Definition getitem {A} (xs : list A) (i : nat) : result A :=
  match xs !! i with
  | Some x => Ok x
  | None => Raise IndexError
  end.

(** [sys.maxsize], the largest index-sized integer: 2^63 - 1 on a 64-bit
    CPython. *)
Definition maxsize : Z := 9223372036854775807.

(** The integer fits an index-sized integer. *)
Definition index_sized (n : Z) : bool :=
  ((- maxsize - 1 <=? n) && (n <=? maxsize))%Z.

(** [s * n] for a one-character string [s].  The count is first converted to
    an index-sized integer, which raises [OverflowError] when it does not fit;
    the result is empty when [n] is not positive.  (Running out of memory,
    which any operation can do, is outside this model.) *)
Definition str_mul (c : char) (n : Z) : result str :=
  if index_sized n then Ok (replicate (Z.to_nat n) c) else Raise OverflowError.

(** ** Internal helpers - ASCII *)

Definition _DrawHorizontalSegment (isOn : bool) : str :=
  lit " " ++ (if isOn then lit "*****" else lit "     ") ++ lit " ".

Definition _DrawVerticalSegment (is_left_on is_right_on : bool) : str :=
  let left_edge := if is_left_on then lit "*" else lit " " in
  let right_edge := if is_right_on then lit "*" else lit " " in
  left_edge ++ lit "     " ++ right_edge.

(** ** Combining rendered blocks *)

Definition sentinel : str := lit "Erorr--not every line is same length wtf?".

Definition CombineDigitASCIIStrings (digit_ascii_list : list str) (gapSpaces : Z)
  : result str :=
  match digit_ascii_list with
  | [] => Ok (empty)
  | _ =>
      (gap_text <~ str_mul space gapSpaces ;;
       let digit_rows_list := map splitlines digit_ascii_list in
       first_rows <~ getitem digit_rows_list 0 ;;
       let expected_rows := length first_rows in
       if existsb (fun rows => negb (length rows =? expected_rows)) digit_rows_list
       then Ok sentinel
       else
         combined_rows <~
           rmap (fun row_index =>
                   row_parts <~ rmap (fun rows => getitem rows row_index)
                                     digit_rows_list ;;
                   Ok (join gap_text row_parts))
                (seq 0 expected_rows) ;;
         Ok (join [LF] combined_rows))%result
  end.

(** ** Data model *)

#[global] Instance SegmentName_eq_dec : EqDecision SegmentName.
Proof. solve_decision. Defined.

(** [auto()] numbers the members from 1 in declaration order. *)
Definition SegmentName_value (name : SegmentName) : positive :=
  match name with
  | Top => 1 | TopRight => 2 | BottomRight => 3 | Bottom => 4
  | BottomLeft => 5 | TopLeft => 6 | Middle => 7
  end%positive.

Definition SegmentName_of_value (p : positive) : option SegmentName :=
  match p with
  | 1 => Some Top | 2 => Some TopRight | 3 => Some BottomRight
  | 4 => Some Bottom | 5 => Some BottomLeft | 6 => Some TopLeft
  | 7 => Some Middle | _ => None
  end%positive.

#[global] Instance SegmentName_countable : Countable SegmentName.
Proof.
  refine {| encode := SegmentName_value; decode := SegmentName_of_value |}.
  intros []; reflexivity.
Defined.

(** The members of the enumeration, as [for name in SegmentName] visits
    them. *)
Definition all_names : list SegmentName :=
  [Top; TopRight; BottomRight; Bottom; BottomLeft; TopLeft; Middle].

(** Objects are named by references. *)
Definition ref := nat.

Record Segment := { isOn : bool }.

Record Digit := {
  color : str;
  segments : gmap SegmentName ref   (* name -> Segment object *)
}.

Record Display := { digits : ref    (* the List[Digit] object *) }.

(** The objects of the program: what each reference denotes at each class. *)
Record store := {
  segment_at : ref -> Segment;
  digit_at : ref -> Digit;
  list_at : ref -> list ref;        (* List[Digit]: references of Digits *)
  display_at : ref -> Display
}.

(** ** The state-and-exception monad *)

Definition M (A : Type) : Type := store -> result A * store.

Definition ret {A} (a : A) : M A := fun s => (Ok a, s).

Definition bind {A B} (m : M A) (k : A -> M B) : M B :=
  fun s =>
    match m s with
    | (Ok a, s') => k a s'
    | (Raise e, s') => (Raise e, s')
    end.

Definition lift {A} (r : result A) : M A := fun s => (r, s).

Declare Scope M_scope.
Delimit Scope M_scope with M.
Notation "x <- c ;; k" := (bind c (fun x => k))
  (at level 100, c at next level, right associativity) : M_scope.
Notation "c ;;; k" := (bind c (fun _ => k))
  (at level 100, right associativity) : M_scope.

Definition get_segment (r : ref) : M Segment := fun s => (Ok (segment_at s r), s).
Definition get_digit (r : ref) : M Digit := fun s => (Ok (digit_at s r), s).
Definition get_list (r : ref) : M (list ref) := fun s => (Ok (list_at s r), s).
Definition get_display (r : ref) : M Display := fun s => (Ok (display_at s r), s).

(** [segment.isOn = v] on the Segment object at [r]. *)
Definition set_isOn (r : ref) (v : bool) : M unit :=
  fun s =>
    (Ok tt,
     {| segment_at := fun r' => if decide (r' = r) then {| isOn := v |}
                                else segment_at s r';
        digit_at := digit_at s;
        list_at := list_at s;
        display_at := display_at s |}).

(** [d[key]]. *)
Definition dict_getitem (d : gmap SegmentName ref) (key : SegmentName) : result ref :=
  match d !! key with
  | Some r => Ok r
  | None => Raise (KeyError key)
  end.

(** [d.values()], each value once per key. *)
Definition dict_values (d : gmap SegmentName ref) : list ref := (map_to_list d).*2.

(** [for x in xs: body(x)]. *)
Fixpoint for_each {A} (xs : list A) (body : A -> M unit) : M unit :=
  match xs with
  | [] => ret tt
  | x :: xs' => (body x ;;; for_each xs' body)%M
  end.

(** [[f(x) for x in xs]]. *)
Fixpoint mmap {A B} (f : A -> M B) (xs : list A) : M (list B) :=
  match xs with
  | [] => ret []
  | x :: xs' => (y <- f x ;; ys <- mmap f xs' ;; ret (y :: ys))%M
  end.

(** ** Public Clock API *)

Definition ClearDisplay (display : ref) : M unit :=
  (d <- get_display display ;;
   digit_refs <- get_list (digits d) ;;
   for_each digit_refs (fun digit =>
     dg <- get_digit digit ;;
     for_each (dict_values (segments dg)) (fun segment =>
       set_isOn segment false)))%M.

(** ** Public ASCII Debug API *)

(** [segments[name].isOn]. *)
Definition segment_isOn (segs : gmap SegmentName ref) (name : SegmentName) : M bool :=
  (r <- lift (dict_getitem segs name) ;;
   sg <- get_segment r ;;
   ret (isOn sg))%M.

Definition horizontal_row (segs : gmap SegmentName ref) (name : SegmentName) : M str :=
  (on <- segment_isOn segs name ;;
   ret (_DrawHorizontalSegment on))%M.

Definition vertical_row (segs : gmap SegmentName ref) (left right : SegmentName) : M str :=
  (is_left_on <- segment_isOn segs left ;;
   is_right_on <- segment_isOn segs right ;;
   ret (_DrawVerticalSegment is_left_on is_right_on))%M.

Definition MakeDigitASCII (digit : ref) : M str :=
  (dg <- get_digit digit ;;
   let segs := segments dg in
   row1 <- horizontal_row segs Top ;;
   row2 <- vertical_row segs TopLeft TopRight ;;
   row3 <- vertical_row segs TopLeft TopRight ;;
   row4 <- horizontal_row segs Middle ;;
   row5 <- vertical_row segs BottomLeft BottomRight ;;
   row6 <- vertical_row segs BottomLeft BottomRight ;;
   row7 <- horizontal_row segs Bottom ;;
   ret (join [LF] [row1; row2; row3; row4; row5; row6; row7]))%M.

Definition MakeDigitsASCII (digit_list : ref) (gapSpaces : Z) : M str :=
  (digit_refs <- get_list digit_list ;;
   digit_ascii_list <- mmap MakeDigitASCII digit_refs ;;
   lift (CombineDigitASCIIStrings digit_ascii_list gapSpaces))%M.
(** ** The objects built by the module's entry point

    [Digit()] makes seven fresh Segments, all off.  Here the Digit at
    reference [d] owns the Segments at [7 * d .. 7 * d + 6], in the order of
    [all_names]; [on] gives the state of each Segment and [lists] the digit
    lists. *)

Definition fresh_segments (base : ref) : gmap SegmentName ref :=
  list_to_map (zip all_names (seq base 7)).

Definition make_store (on : ref -> bool) (lists : ref -> list ref) : store :=
  {| segment_at := fun r => {| isOn := on r |};
     digit_at := fun d => {| color := lit "white"; segments := fresh_segments (7 * d) |};
     list_at := lists;
     display_at := fun r => {| digits := r |} |}.

(** [example_digit] is Digit 0 with [Top] on; [right_digit] is Digit 1 with
    [Top] and [Bottom] on; list 0 is [[example_digit, right_digit]], list 1
    is empty. *)
Definition main_store : store :=
  make_store (fun r => bool_decide (r ∈ [0; 7; 10]))
             (fun l => if decide (l = 0) then [0; 1] else []).

(** ** Vocabulary of the properties *)

Definition no_linebreak (line : str) : Prop :=
  Forall (fun c => is_linebreak c = false) line.

Definition row_count (block : str) : nat := length (splitlines block).

(** Row [i] of a block (counted from 0). *)
Definition block_row (i : nat) (block : str) : str := nth i (splitlines block) [].

(** Every block has as many rows as the first one. *)
Definition same_row_count (blocks : list str) : bool :=
  forallb (fun block => row_count block =? row_count (hd [] blocks)) blocks.

(** [n] spaces; none when [n] is not positive. *)
Definition spaces (n : Z) : str := replicate (Z.to_nat n) space.

(** The combined block in the words of the specification: for each row index
    of the first block, that row of every block joined by [gapSpaces] spaces;
    the resulting rows joined by newline. *)
Definition combined_block (blocks : list str) (gapSpaces : Z) : str :=
  join [LF]
    (map (fun i => join (spaces gapSpaces) (map (block_row i) blocks))
         (seq 0 (row_count (hd [] blocks)))).

(** The state of the Segment that the Digit at [digit] holds under [name];
    [None] when its segment map has no such key. *)
Definition segment_state (s : store) (digit : ref) (name : SegmentName) : option bool :=
  match segments (digit_at s digit) !! name with
  | Some r => Some (isOn (segment_at s r))
  | None => None
  end.

(** The segment map has all seven keys. *)
Definition well_formed (s : store) (digit : ref) : Prop :=
  forall name, is_Some (segments (digit_at s digit) !! name).

Definition state_isOn (st : SegmentName -> option bool) (name : SegmentName) : result bool :=
  match st name with
  | Some on => Ok on
  | None => Raise (KeyError name)
  end.

(** The seven rows of a glyph, top to bottom, from the segment states. *)
Definition glyph_rows (on : SegmentName -> bool) : list str :=
  [ _DrawHorizontalSegment (on Top);
    _DrawVerticalSegment (on TopLeft) (on TopRight);
    _DrawVerticalSegment (on TopLeft) (on TopRight);
    _DrawHorizontalSegment (on Middle);
    _DrawVerticalSegment (on BottomLeft) (on BottomRight);
    _DrawVerticalSegment (on BottomLeft) (on BottomRight);
    _DrawHorizontalSegment (on Bottom) ].

(** What [MakeDigitASCII] computes from the segment states it reads, in the
    order in which it reads them. *)
Definition glyph (st : SegmentName -> option bool) : result str :=
  (top <~ state_isOn st Top ;;
   tl <~ state_isOn st TopLeft ;; tr <~ state_isOn st TopRight ;;
   tl' <~ state_isOn st TopLeft ;; tr' <~ state_isOn st TopRight ;;
   mid <~ state_isOn st Middle ;;
   bl <~ state_isOn st BottomLeft ;; br <~ state_isOn st BottomRight ;;
   bl' <~ state_isOn st BottomLeft ;; br' <~ state_isOn st BottomRight ;;
   bot <~ state_isOn st Bottom ;;
   Ok (join [LF]
         [ _DrawHorizontalSegment top;
           _DrawVerticalSegment tl tr; _DrawVerticalSegment tl' tr';
           _DrawHorizontalSegment mid;
           _DrawVerticalSegment bl br; _DrawVerticalSegment bl' br';
           _DrawHorizontalSegment bot ]))%result.

(** The states of a well-formed digit, as a total function. *)
Definition isOn_of (s : store) (digit : ref) (name : SegmentName) : bool :=
  default false (segment_state s digit name).

(** A glyph row: seven characters, each '*' or a space. *)
Definition glyph_row (row : str) : Prop :=
  length row = 7 /\ Forall (fun c => c = star \/ c = space) row.

(** Two rows side by side with a two-space gap. *)
Definition side_by_side (row1 row2 : str) : str := row1 ++ lit "  " ++ row2.

(** The Segment objects of a list of digits: the values of their segment
    maps, in the order in which [ClearDisplay] visits them. *)
Definition digits_segments (s : store) (digit_refs : list ref) : list ref :=
  concat (map (fun digit => dict_values (segments (digit_at s digit))) digit_refs).

Definition display_digits (s : store) (display : ref) : list ref :=
  list_at s (digits (display_at s display)).

Definition display_segments (s : store) (display : ref) : list ref :=
  digits_segments s (display_digits s display).

(** [s'] is [s] with the Segments [rs] turned off and nothing else changed. *)
Definition turned_off (rs : list ref) (s s' : store) : Prop :=
  digit_at s' = digit_at s /\
  list_at s' = list_at s /\
  display_at s' = display_at s /\
  forall r, segment_at s' r =
              if decide (r ∈ rs) then {| isOn := false |} else segment_at s r.

(** The two stores hold the same objects. *)
Definition same_objects (s s' : store) : Prop :=
  (forall r, segment_at s' r = segment_at s r) /\
  (forall r, digit_at s' r = digit_at s r) /\
  (forall r, list_at s' r = list_at s r) /\
  (forall r, display_at s' r = display_at s r).

(** The segments that are on in the scenario of C5. *)
Definition top_and_bottom (name : SegmentName) : bool :=
  match name with
  | Top | Bottom => true
  | _ => false
  end.

(** The one line a\vb: \v (code point 11) is neither \n nor \r. *)
Definition a_vt_b : str := lit "a" ++ [11%N] ++ lit "b".

(** The entry point's objects with every Digit recolored and every Segment
    that no Digit of list 0 owns turned on. *)
Definition other_store : store :=
  {| segment_at := fun r => {| isOn := bool_decide (r ∈ [0; 7; 10]) || (14 <=? r) |};
     digit_at := fun d => {| color := lit "red"; segments := fresh_segments (7 * d) |};
     list_at := list_at main_store;
     display_at := display_at main_store |}.

(** ** Callers: constructors and direct field assignment *)

(** [digit.segments[name].isOn = v], the way the entry point sets a
    segment. *)
Definition set_segment (digit : ref) (name : SegmentName) (v : bool) : M unit :=
  (dg <- get_digit digit ;;
   r <- lift (dict_getitem (segments dg) name) ;;
   set_isOn r v)%M.

(** The objects together with the allocator's record of them: the Segments
    made so far are the objects at the references below [segments_made], the
    Digits those below [digits_made].  A new object gets the next reference,
    so it is distinct from every object made before. *)
Record heap := {
  objects : store;
  segments_made : nat;
  digits_made : nat
}.

(** [Segment()]: a new Segment, off. *)
Definition new_Segment (h : heap) : ref * heap :=
  let r := segments_made h in
  (r, {| objects := (set_isOn r false (objects h)).2;
         segments_made := S r;
         digits_made := digits_made h |}).

(** [{name: Segment() for name in names}], filling [acc] in the order of
    [names]. *)
Fixpoint new_segments (names : list SegmentName) (acc : gmap SegmentName ref)
    (h : heap) : gmap SegmentName ref * heap :=
  match names with
  | [] => (acc, h)
  | name :: names' =>
      let (r, h') := new_Segment h in
      new_segments names' (<[name := r]> acc) h'
  end.

(** Storing a Digit object at [d]. *)
Definition put_digit (d : ref) (dg : Digit) : M unit :=
  fun s =>
    (Ok tt,
     {| segment_at := segment_at s;
        digit_at := fun d' => if decide (d' = d) then dg else digit_at s d';
        list_at := list_at s;
        display_at := display_at s |}).

(** [Digit()]: color "white" and the default factory's seven new
    Segments. *)
Definition new_Digit (h : heap) : ref * heap :=
  let (segs, h') := new_segments all_names ∅ h in
  let d := digits_made h' in
  (d, {| objects := (put_digit d {| color := lit "white"; segments := segs |}
                       (objects h')).2;
         segments_made := segments_made h';
         digits_made := S d |}).

(** The entry point's objects once both of its digits are made: fourteen
    Segments and two Digits. *)
Definition main_heap : heap :=
  {| objects := main_store; segments_made := 14; digits_made := 2 |}.

(** ** Vocabulary of the further properties *)

(** The order in which [MakeDigitASCII] first reads the seven keys. *)
Definition read_order : list SegmentName :=
  [Top; TopLeft; TopRight; Middle; BottomLeft; BottomRight; Bottom].

Definition missing (segs : gmap SegmentName ref) (name : SegmentName) : bool :=
  match segs !! name with
  | Some _ => false
  | None => true
  end.

(** The first key, in reading order, that the segment map lacks. *)
Definition first_missing (segs : gmap SegmentName ref) : option SegmentName :=
  find (missing segs) read_order.

(** The rows of a block: no line boundary inside a row, and the last row is
    not empty. *)
Definition block_rows (rows : list str) : Prop :=
  Forall no_linebreak rows /\ last rows <> Some [].

(** Rows [0 .. n-1] of several blocks set side by side: row [i] is row [i]
    of every block, joined by [gap]. *)
Definition stitch (gap : str) (rowss : list (list str)) (n : nat) : list str :=
  map (fun i => join gap (map (fun rows => nth i rows []) rowss)) (seq 0 n).

(** The glyph of a digit whose segments are all off. *)
Definition blank_glyph : str := join [LF] (replicate 7 (replicate 7 space)).

(** A character of rendered output. *)
Definition glyph_char (c : char) : Prop := c = star \/ c = space \/ c = LF.

(** The entry point's objects where Digit 1 has lost its [Middle] and
    [Bottom] keys. *)
Definition broken_store : store :=
  {| segment_at := segment_at main_store;
     digit_at := fun d =>
       if decide (d = 1)
       then {| color := lit "white";
               segments := delete Middle (delete Bottom (fresh_segments 7)) |}
       else digit_at main_store d;
     list_at := list_at main_store;
     display_at := display_at main_store |}.

(** Digit 2 of this store holds, as its [Top], the [Top] Segment of Digit 0;
    list 0 is still [[0, 1]]. *)
Definition shared_store : store :=
  {| segment_at := segment_at main_store;
     digit_at := fun d =>
       if decide (d = 2)
       then {| color := lit "white"; segments := <[Top := 0]> (fresh_segments 14) |}
       else digit_at main_store d;
     list_at := list_at main_store;
     display_at := display_at main_store |}.

(** * Properties *)

(** ** Lines, [join], [splitlines] and [split] *)

(** [splitlines] and [split] on small inputs, as Python evaluates them:
    ["ab\n\ncd\r\nef\n".splitlines() == ['ab', '', 'cd', 'ef']],
    ["a\x0bb".splitlines() == ['a', 'b']], ["\n\r".splitlines() == ['', '']],
    ["a\n".split("\n") == ['a', '']]. *)
Example splitlines_mixed_ends :
  splitlines (lit "ab" ++ [LF; LF] ++ lit "cd" ++ [CR; LF] ++ lit "ef" ++ [LF])
  = [lit "ab"; empty; lit "cd"; lit "ef"].
Proof. reflexivity. Qed.

Example splitlines_vertical_tab : splitlines a_vt_b = [lit "a"; lit "b"].
Proof. reflexivity. Qed.

Example splitlines_LF_CR : splitlines [LF; CR] = [empty; empty].
Proof. reflexivity. Qed.

Example split_trailing_newline : split LF (lit "a" ++ [LF]) = [lit "a"; empty].
Proof. reflexivity. Qed.

Lemma splitlines_cons_plain c s :
  is_linebreak c = false ->
  splitlines (c :: s) =
    match splitlines s with
    | [] => [[c]]
    | line :: lines => (c :: line) :: lines
    end.
Proof. intros Hc. cbn [splitlines]. by rewrite Hc. Qed.

Lemma splitlines_LF s : splitlines (LF :: s) = [] :: splitlines s.
Proof. by destruct s. Qed.

Lemma splitlines_app_LF line rest :
  no_linebreak line ->
  splitlines (line ++ LF :: rest) = line :: splitlines rest.
Proof.
  induction 1 as [|c line Hc _ IH].
  - apply splitlines_LF.
  - rewrite <- app_comm_cons, splitlines_cons_plain, IH; done.
Qed.

Lemma splitlines_one_line line :
  no_linebreak line -> line <> [] -> splitlines line = [line].
Proof.
  induction 1 as [|c line Hc Hline IH]; [done|]. intros _.
  rewrite splitlines_cons_plain by done.
  destruct line as [|c' line]; [done|]. by rewrite IH.
Qed.

(** Joining lines with \n and splitting again gives the lines back, unless
    the last line is empty. *)
Lemma splitlines_join lines :
  Forall no_linebreak lines ->
  last lines <> Some [] ->
  splitlines (join [LF] lines) = lines.
Proof.
  induction 1 as [|line lines Hline Hlines IH]; [done|].
  destruct lines as [|line' lines].
  - intros Hlast. apply splitlines_one_line; [done|].
    intros ->. by apply Hlast.
  - intros Hlast. change (join [LF] (line :: line' :: lines))
      with (line ++ LF :: join [LF] (line' :: lines)).
    rewrite splitlines_app_LF by done. f_equal. by apply IH.
Qed.

Lemma split_one_field sep field :
  sep ∉ field -> split sep field = [field].
Proof.
  induction field as [|c field IH]; [done|].
  intros Hsep. apply not_elem_of_cons in Hsep as [Hc Hfield].
  cbn [split]. destruct (N.eqb_spec c sep); [congruence|].
  by rewrite IH.
Qed.

Lemma split_app_sep sep field rest :
  sep ∉ field -> split sep (field ++ sep :: rest) = field :: split sep rest.
Proof.
  induction field as [|c field IH].
  - intros _. cbn [app split]. by rewrite N.eqb_refl.
  - intros Hsep. apply not_elem_of_cons in Hsep as [Hc Hfield].
    rewrite <- app_comm_cons. cbn [split].
    destruct (N.eqb_spec c sep); [congruence|].
    by rewrite IH.
Qed.

Lemma split_join lines :
  lines <> [] ->
  Forall (fun line => LF ∉ line) lines ->
  split LF (join [LF] lines) = lines.
Proof.
  intros Hne Hlines. induction Hlines as [|line lines Hline Hlines IH]; [done|].
  destruct lines as [|line' lines].
  - by apply split_one_field.
  - change (join [LF] (line :: line' :: lines))
      with (line ++ LF :: join [LF] (line' :: lines)).
    rewrite split_app_sep by done. f_equal. by apply IH.
Qed.

Lemma elem_of_join_sep (sep : str) c p q parts :
  c ∈ sep -> c ∈ join sep (p :: q :: parts).
Proof.
  intros Hc. change (join sep (p :: q :: parts))
    with (p ++ sep ++ join sep (q :: parts)).
  rewrite !elem_of_app. auto.
Qed.


(** ** [CombineDigitASCIIStrings] *)

Lemma rmap_ok {A B} (f : A -> result B) (g : A -> B) xs :
  (forall x, x ∈ xs -> f x = Ok (g x)) -> rmap f xs = Ok (map g xs).
Proof.
  induction xs as [|x xs IH]; [done|]. intros Hf.
  cbn [rmap map]. rewrite Hf by left. cbn [rbind].
  rewrite IH; [done|]. intros y Hy. apply Hf. by right.
Qed.

Lemma getitem_nth {A} (d : A) xs i : i < length xs -> getitem xs i = Ok (nth i xs d).
Proof.
  intros Hi. unfold getitem.
  destruct (lookup_lt_is_Some_2 xs i Hi) as [x Hx]. rewrite Hx.
  by rewrite (nth_lookup_Some _ _ d x Hx).
Qed.

Lemma existsb_negb_forallb {A} (p : A -> bool) xs :
  existsb (fun x => negb (p x)) xs = negb (forallb p xs).
Proof.
  induction xs as [|x xs IH]; [done|].
  cbn [existsb forallb]. rewrite IH. by destruct (p x).
Qed.

Lemma forallb_fmap {A B} (p : B -> bool) (f : A -> B) xs :
  forallb p (map f xs) = forallb (fun x => p (f x)) xs.
Proof. induction xs as [|x xs IH]; [done|]. cbn [map forallb]. by rewrite IH. Qed.

Lemma index_sized_true n :
  (- maxsize - 1 <= n <= maxsize)%Z -> index_sized n = true.
Proof. unfold index_sized. lia. Qed.

Lemma index_sized_false n :
  (n < - maxsize - 1 \/ maxsize < n)%Z -> index_sized n = false.
Proof. unfold index_sized. lia. Qed.

Lemma str_mul_spaces gapSpaces :
  index_sized gapSpaces = true -> str_mul space gapSpaces = Ok (spaces gapSpaces).
Proof. intros Hfit. unfold str_mul. by rewrite Hfit. Qed.

(** With a gap that does not fit an index-sized integer, a non-empty list
    gets no further than the gap text. *)
Lemma CombineDigitASCIIStrings_overflow blocks gapSpaces :
  index_sized gapSpaces = false ->
  blocks <> [] ->
  CombineDigitASCIIStrings blocks gapSpaces = Raise OverflowError.
Proof.
  intros Hfit Hne. destruct blocks as [|block blocks]; [done|].
  unfold CombineDigitASCIIStrings, str_mul. by rewrite Hfit.
Qed.

(** What [CombineDigitASCIIStrings] returns when the gap fits an index-sized
    integer: it does not raise, and its value is the combined block or the
    sentinel. *)
Lemma CombineDigitASCIIStrings_spec blocks gapSpaces :
  index_sized gapSpaces = true ->
  CombineDigitASCIIStrings blocks gapSpaces =
    Ok (if same_row_count blocks then combined_block blocks gapSpaces else sentinel).
Proof.
  intros Hfit. destruct blocks as [|block blocks]; [done|].
  unfold CombineDigitASCIIStrings, same_row_count, combined_block.
  rewrite (str_mul_spaces _ Hfit). cbn [rbind].
  set (bs := block :: blocks).
  change (getitem (map splitlines bs) 0) with (Ok (A:=list str) (splitlines block)).
  cbn [rbind]. change (hd [] bs) with block. fold (row_count block).
  rewrite (existsb_negb_forallb (fun rows => length rows =? row_count block)).
  rewrite forallb_fmap.
  change (fun x => length (splitlines x) =? row_count block)
    with (fun x => row_count x =? row_count block).
  destruct (forallb _ bs) eqn:Hall; cbn [negb]; [|done].
  rewrite (rmap_ok _ (fun i => join (spaces gapSpaces) (map (block_row i) bs)));
    [done|].
  intros i Hi. apply elem_of_seq in Hi.
  rewrite (rmap_ok (fun rows : list str => getitem rows i)
                   (fun rows => nth i rows []) (map splitlines bs)).
  - cbn [rbind]. by rewrite map_map.
  - intros rows Hrows. apply list_elem_of_fmap in Hrows as (b & -> & Hb).
    apply getitem_nth.
    rewrite forallb_forall in Hall. apply list_elem_of_In, Hall in Hb.
    apply Nat.eqb_eq in Hb. unfold row_count in *. lia.
Qed.

Lemma same_row_count_true blocks :
  same_row_count blocks = true <->
  forall block, block ∈ blocks -> row_count block = row_count (hd [] blocks).
Proof.
  unfold same_row_count. rewrite forallb_forall. split.
  - intros H b Hb. apply Nat.eqb_eq, H. by apply list_elem_of_In.
  - intros H b Hb. apply Nat.eqb_eq, H. by apply list_elem_of_In.
Qed.


Lemma sentinel_one_line : LF ∉ sentinel.
Proof. apply (bool_decide_unpack _). by vm_compute. Qed.

(** ** Rendering one digit *)

Lemma segment_isOn_run s digit name :
  segment_isOn (segments (digit_at s digit)) name s =
    (state_isOn (segment_state s digit) name, s).
Proof.
  unfold segment_isOn, state_isOn, segment_state, bind, lift, dict_getitem,
    get_segment, ret.
  by destruct (segments (digit_at s digit) !! name).
Qed.

Lemma horizontal_row_run s digit name :
  horizontal_row (segments (digit_at s digit)) name s =
    ((on <~ state_isOn (segment_state s digit) name ;;
      Ok (_DrawHorizontalSegment on))%result, s).
Proof.
  unfold horizontal_row, bind. rewrite segment_isOn_run.
  by destruct (state_isOn _ name).
Qed.

Lemma vertical_row_run s digit left right :
  vertical_row (segments (digit_at s digit)) left right s =
    ((l <~ state_isOn (segment_state s digit) left ;;
      r <~ state_isOn (segment_state s digit) right ;;
      Ok (_DrawVerticalSegment l r))%result, s).
Proof.
  unfold vertical_row, bind. rewrite segment_isOn_run.
  destruct (state_isOn _ left); [|done]. rewrite segment_isOn_run.
  by destruct (state_isOn _ right).
Qed.

(** Binding a computation that leaves the store alone. *)
Lemma bind_run {A B} (m : M A) (k : A -> M B) s r :
  m s = (r, s) ->
  bind m k s = match r with Ok a => k a s | Raise e => (Raise e, s) end.
Proof. intros Hm. unfold bind. rewrite Hm. by destruct r. Qed.

Ltac run_row row_run :=
  rewrite (bind_run _ _ _ _ row_run);
  repeat match goal with
         | H : state_isOn _ ?name = _ |- context [state_isOn _ ?name] => rewrite H
         end;
  repeat match goal with
         | |- context [state_isOn ?st ?name] => destruct (state_isOn st name) eqn:?
         end;
  cbn [rbind]; try done.

(** [MakeDigitASCII] returns the glyph of the states it reads and leaves the
    store as it found it. *)
Lemma MakeDigitASCII_run s digit :
  MakeDigitASCII digit s = (glyph (segment_state s digit), s).
Proof.
  unfold MakeDigitASCII, glyph.
  rewrite (bind_run _ _ s (Ok (digit_at s digit))) by done. cbv zeta.
  run_row (horizontal_row_run s digit Top);
  run_row (vertical_row_run s digit TopLeft TopRight);
  run_row (vertical_row_run s digit TopLeft TopRight);
  run_row (horizontal_row_run s digit Middle);
  run_row (vertical_row_run s digit BottomLeft BottomRight);
  run_row (vertical_row_run s digit BottomLeft BottomRight);
  run_row (horizontal_row_run s digit Bottom).
Qed.

Lemma glyph_states st on :
  (forall name, st name = Some (on name)) ->
  glyph st = Ok (join [LF] (glyph_rows on)).
Proof. intros Hst. unfold glyph, state_isOn. by rewrite !Hst. Qed.

Lemma well_formed_states s digit :
  well_formed s digit ->
  forall name, segment_state s digit name = Some (isOn_of s digit name).
Proof.
  intros Hwf name. unfold isOn_of, segment_state.
  by destruct (Hwf name) as [r ->].
Qed.

Lemma MakeDigitASCII_well_formed s digit :
  well_formed s digit ->
  MakeDigitASCII digit s = (Ok (join [LF] (glyph_rows (isOn_of s digit))), s).
Proof.
  intros Hwf. rewrite MakeDigitASCII_run.
  by rewrite (glyph_states _ _ (well_formed_states _ _ Hwf)).
Qed.

(** *** The shape of the rows *)

Ltac stars_and_spaces :=
  vm_compute;
  repeat (constructor; [first [by left | by right]|]); constructor.

Lemma _DrawHorizontalSegment_glyph_row on : glyph_row (_DrawHorizontalSegment on).
Proof. destruct on; (split; [done|]); stars_and_spaces. Qed.

Lemma _DrawVerticalSegment_glyph_row l r : glyph_row (_DrawVerticalSegment l r).
Proof. destruct l, r; (split; [done|]); stars_and_spaces. Qed.

Lemma glyph_rows_glyph_row on : Forall glyph_row (glyph_rows on).
Proof.
  unfold glyph_rows.
  repeat (constructor 2;
          [first [apply _DrawHorizontalSegment_glyph_row
                 | apply _DrawVerticalSegment_glyph_row]|]).
  constructor 1.
Qed.

Lemma glyph_row_no_linebreak row : glyph_row row -> no_linebreak row.
Proof.
  intros [_ Hrow]. eapply Forall_impl; [exact Hrow|].
  by intros c [-> | ->].
Qed.

Lemma glyph_row_no_LF row : glyph_row row -> LF ∉ row.
Proof.
  intros [_ Hrow] HLF. rewrite Forall_forall in Hrow.
  by destruct (Hrow _ HLF).
Qed.

(** Both ways of cutting a rendered glyph into rows give its seven rows. *)
Lemma splitlines_glyph on : splitlines (join [LF] (glyph_rows on)) = glyph_rows on.
Proof.
  apply splitlines_join.
  - eapply Forall_impl; [apply glyph_rows_glyph_row|]. apply glyph_row_no_linebreak.
  - cbn [glyph_rows last]. unfold _DrawHorizontalSegment. intros [=].
Qed.

Lemma split_glyph on : split LF (join [LF] (glyph_rows on)) = glyph_rows on.
Proof.
  apply split_join; [done|].
  eapply Forall_impl; [apply glyph_rows_glyph_row|]. apply glyph_row_no_LF.
Qed.

Lemma side_by_side_no_LF rows1 rows2 :
  Forall glyph_row rows1 -> Forall glyph_row rows2 ->
  Forall (fun row => LF ∉ row) (zip_with side_by_side rows1 rows2).
Proof.
  intros Hrows1. revert rows2.
  induction Hrows1 as [|row1 rows1 Hrow1 _ IH]; intros rows2 Hrows2; [constructor 1|].
  destruct Hrows2 as [|row2 rows2 Hrow2 Hrows2]; [constructor 1|].
  cbn [zip_with]. constructor 2; [|by apply IH].
  unfold side_by_side. rewrite !elem_of_app.
  intros [Hin|[Hin|Hin]].
  - by apply (glyph_row_no_LF _ Hrow1).
  - revert Hin. apply (bool_decide_unpack _). by vm_compute.
  - by apply (glyph_row_no_LF _ Hrow2).
Qed.

(** ** Rendering a list of digits *)

Lemma mmap_MakeDigitASCII_run s digit_refs :
  mmap MakeDigitASCII digit_refs s =
    (rmap (fun digit => glyph (segment_state s digit)) digit_refs, s).
Proof.
  induction digit_refs as [|digit digit_refs IH]; [done|].
  cbn [mmap rmap].
  rewrite (bind_run _ _ _ _ (MakeDigitASCII_run s digit)).
  destruct (glyph (segment_state s digit)) as [text|e]; cbn [rbind]; [|done].
  rewrite (bind_run _ _ _ _ IH).
  by destruct (rmap _ digit_refs).
Qed.

Lemma MakeDigitsASCII_run s digit_list gapSpaces :
  MakeDigitsASCII digit_list gapSpaces s =
    ((digit_ascii_list <~
        rmap (fun digit => glyph (segment_state s digit)) (list_at s digit_list) ;;
      CombineDigitASCIIStrings digit_ascii_list gapSpaces)%result, s).
Proof.
  unfold MakeDigitsASCII.
  rewrite (bind_run _ _ s (Ok (list_at s digit_list))) by done.
  rewrite (bind_run _ _ _ _ (mmap_MakeDigitASCII_run s _)).
  by destruct (rmap _ _).
Qed.

(** ** Clearing the display *)

Lemma turned_off_nil s : turned_off [] s s.
Proof. repeat split. Qed.

Lemma turned_off_app rs1 rs2 s s1 s2 :
  turned_off rs1 s s1 -> turned_off rs2 s1 s2 -> turned_off (rs1 ++ rs2) s s2.
Proof.
  intros (Hd1 & Hl1 & Hp1 & Hs1) (Hd2 & Hl2 & Hp2 & Hs2).
  repeat split; [congruence..|].
  intros r. rewrite Hs2, Hs1.
  destruct (decide (r ∈ rs1 ++ rs2)) as [Hin|Hin]; rewrite elem_of_app in Hin;
    destruct (decide (r ∈ rs2)), (decide (r ∈ rs1)); tauto.
Qed.

Lemma set_isOn_turned_off r s : turned_off [r] s (set_isOn r false s).2.
Proof.
  repeat split. intros r'. cbn.
  destruct (decide (r' ∈ [r])) as [Hin|Hin]; rewrite list_elem_of_singleton in Hin;
    destruct (decide (r' = r)); tauto.
Qed.

Lemma clear_segments rs s :
  exists s', for_each rs (fun segment => set_isOn segment false) s = (Ok tt, s') /\
             turned_off rs s s'.
Proof.
  revert s. induction rs as [|r rs IH]; intros s.
  - exists s. split; [done|]. apply turned_off_nil.
  - destruct (IH (set_isOn r false s).2) as (s' & Hrun & Hoff).
    exists s'. split.
    + cbn [for_each]. unfold bind at 1. exact Hrun.
    + apply (turned_off_app [r] rs _ _ _ (set_isOn_turned_off r s) Hoff).
Qed.

Lemma clear_digits digit_refs s :
  exists s',
    for_each digit_refs (fun digit =>
      dg <- get_digit digit ;;
      for_each (dict_values (segments dg)) (fun segment =>
        set_isOn segment false))%M s = (Ok tt, s') /\
    turned_off (digits_segments s digit_refs) s s'.
Proof.
  revert s. induction digit_refs as [|digit digit_refs IH]; intros s.
  - exists s. split; [done|]. apply turned_off_nil.
  - destruct (clear_segments (dict_values (segments (digit_at s digit))) s)
      as (s1 & Hrun1 & Hoff1).
    destruct (IH s1) as (s' & Hrun & Hoff).
    exists s'. split.
    + cbn [for_each]. unfold bind at 1, bind at 1, get_digit.
      by rewrite Hrun1.
    + unfold digits_segments in *. cbn [map concat].
      apply (turned_off_app _ _ _ _ _ Hoff1).
      destruct Hoff1 as (Hd & _). by rewrite <- Hd.
Qed.

(** [ClearDisplay] never raises and turns off exactly the Segments of the
    display's digits. *)
Lemma ClearDisplay_run display s :
  exists s', ClearDisplay display s = (Ok tt, s') /\
             turned_off (display_segments s display) s s'.
Proof.
  destruct (clear_digits (display_digits s display) s) as (s' & Hrun & Hoff).
  exists s'. split; [|done].
  unfold ClearDisplay, bind at 1, bind at 1, get_display, get_list. exact Hrun.
Qed.

Lemma turned_off_display_segments rs display s s' :
  turned_off rs s s' -> display_segments s' display = display_segments s display.
Proof.
  intros (Hd & Hl & Hp & _).
  unfold display_segments, display_digits, digits_segments.
  by rewrite Hd, Hl, Hp.
Qed.

Lemma elem_of_dict_values (d : gmap SegmentName ref) name r :
  d !! name = Some r -> r ∈ dict_values d.
Proof.
  intros Hr. unfold dict_values. apply list_elem_of_fmap.
  exists (name, r). split; [done|]. by apply elem_of_map_to_list.
Qed.

Lemma elem_of_display_segments s display digit name r :
  digit ∈ display_digits s display ->
  segments (digit_at s digit) !! name = Some r ->
  r ∈ display_segments s display.
Proof.
  intros Hdigit Hr. unfold display_segments, digits_segments.
  apply list_elem_of_In, in_concat.
  exists (dict_values (segments (digit_at s digit))). split.
  - apply (in_map (fun digit => dict_values (segments (digit_at s digit)))),
      list_elem_of_In, Hdigit.
  - by eapply list_elem_of_In, elem_of_dict_values.
Qed.

(** ** What the renderers depend on *)

Lemma glyph_ext st st' :
  (forall name, st' name = st name) -> glyph st' = glyph st.
Proof. intros Hst. unfold glyph, state_isOn. by rewrite !Hst. Qed.

Lemma rmap_ext {A B} (f g : A -> result B) xs :
  (forall x, x ∈ xs -> f x = g x) -> rmap f xs = rmap g xs.
Proof.
  induction xs as [|x xs IH]; [done|]. intros Hfg.
  cbn [rmap]. rewrite (Hfg x) by left.
  rewrite IH; [done|]. intros y Hy. apply Hfg. by right.
Qed.

(** Every text that [MakeDigitASCII] returns is the newline-join of seven
    glyph rows. *)
Lemma glyph_Ok st text :
  glyph st = Ok text -> exists on, text = join [LF] (glyph_rows on).
Proof.
  unfold glyph, state_isOn. intros Hglyph.
  exists (fun name => default false (st name)). unfold glyph_rows.
  destruct (st Top); [|done]. destruct (st TopLeft); [|done].
  destruct (st TopRight); [|done]. destruct (st Middle); [|done].
  destruct (st BottomLeft); [|done]. destruct (st BottomRight); [|done].
  destruct (st Bottom); [|done].
  cbn [rbind] in Hglyph. by injection Hglyph as <-.
Qed.

(** With no Segment to visit, the loops of [ClearDisplay] change nothing. *)
Lemma clear_digits_noop digit_refs s :
  (forall digit, digit ∈ digit_refs -> segments (digit_at s digit) = ∅) ->
  for_each digit_refs (fun digit =>
    dg <- get_digit digit ;;
    for_each (dict_values (segments dg)) (fun segment =>
      set_isOn segment false))%M s = (Ok tt, s).
Proof.
  induction digit_refs as [|digit digit_refs IH]; [done|]. intros Hempty.
  cbn [for_each]. unfold bind at 1, bind at 1, get_digit.
  rewrite (Hempty digit) by left.
  unfold dict_values. rewrite map_to_list_empty. cbn [fmap list_fmap for_each ret].
  apply IH. intros digit' Hdigit'. apply Hempty. by right.
Qed.

(** * The claims *)

(** C1. For every Digit whose segment map has all seven keys,
    [MakeDigitASCII] returns a text that splits on newline into exactly 7
    rows, each exactly 7 characters long (and [splitlines] cuts the text into
    the same rows); the store is left as it was. *)
Theorem MakeDigitASCII_seven_rows s digit :
  well_formed s digit ->
  exists text,
    MakeDigitASCII digit s = (Ok text, s) /\
    length (split LF text) = 7 /\
    Forall (fun row => length row = 7) (split LF text) /\
    splitlines text = split LF text.
Proof.
  intros Hwf. eexists. split; [by apply MakeDigitASCII_well_formed|].
  rewrite split_glyph, splitlines_glyph. split; [done|]. split; [|done].
  eapply Forall_impl; [apply glyph_rows_glyph_row|]. by intros row [Hlen _].
Qed.

Lemma MakeDigitASCII_seven_rows_witness :
  exists text,
    MakeDigitASCII 0 main_store = (Ok text, main_store) /\
    length (split LF text) = 7 /\
    Forall (fun row => length row = 7) (split LF text) /\
    splitlines text = split LF text.
Proof.
  apply (MakeDigitASCII_seven_rows main_store 0).
  intros name. destruct name; vm_compute; eauto.
Defined.




(** C3. For every pair of well-formed Digits d1 and d2,
    [MakeDigitsASCII([d1, d2], gapSpaces=2)] returns a text of exactly 7
    newline-separated rows, and each row is that row of [MakeDigitASCII(d1)],
    then two spaces, then that row of [MakeDigitASCII(d2)].  (Rows are counted
    from 0 here.) *)
Theorem MakeDigitsASCII_pair s digit_list d1 d2 :
  list_at s digit_list = [d1; d2] ->
  well_formed s d1 ->
  well_formed s d2 ->
  exists text1 text2 text,
    MakeDigitASCII d1 s = (Ok text1, s) /\
    MakeDigitASCII d2 s = (Ok text2, s) /\
    MakeDigitsASCII digit_list 2 s = (Ok text, s) /\
    length (split LF text) = 7 /\
    forall i, i < 7 ->
      nth i (split LF text) [] =
        nth i (split LF text1) [] ++ lit "  " ++ nth i (split LF text2) [].
Proof.
  intros Hlist Hwf1 Hwf2.
  exists (join [LF] (glyph_rows (isOn_of s d1))),
         (join [LF] (glyph_rows (isOn_of s d2))),
         (join [LF] (zip_with side_by_side
                       (glyph_rows (isOn_of s d1)) (glyph_rows (isOn_of s d2)))).
  split; [by apply MakeDigitASCII_well_formed|].
  split; [by apply MakeDigitASCII_well_formed|].
  split.
  - rewrite MakeDigitsASCII_run, Hlist. cbn [rmap].
    rewrite !(glyph_states _ _ (well_formed_states _ _ Hwf1)),
            !(glyph_states _ _ (well_formed_states _ _ Hwf2)).
    cbn [rbind]. rewrite CombineDigitASCIIStrings_spec by reflexivity.
    unfold same_row_count, combined_block, row_count, block_row.
    cbn [hd forallb map].
    by rewrite !splitlines_glyph.
  - rewrite split_join, !split_glyph;
      [|done|apply side_by_side_no_LF; apply glyph_rows_glyph_row].
    split; [done|].
    intros i Hi. by do 7 (destruct i as [|i]; [done|]); lia.
Qed.

Lemma MakeDigitsASCII_pair_witness :
  exists text1 text2 text,
    MakeDigitASCII 0 main_store = (Ok text1, main_store) /\
    MakeDigitASCII 1 main_store = (Ok text2, main_store) /\
    MakeDigitsASCII 0 2 main_store = (Ok text, main_store) /\
    length (split LF text) = 7 /\
    forall i, i < 7 ->
      nth i (split LF text) [] =
        nth i (split LF text1) [] ++ lit "  " ++ nth i (split LF text2) [].
Proof.
  apply (MakeDigitsASCII_pair main_store 0 0 1).
  - reflexivity.
  - intros name. destruct name; vm_compute; eauto.
  - intros name. destruct name; vm_compute; eauto.
Defined.

(** C4. For every boolean segment state: a horizontal segment row is one
    space, then five '*' if the segment is on and five spaces if it is off,
    then one space; a vertical pair row is one character ('*' if the left
    segment is on, else a space), then five spaces, then one character ('*'
    if the right segment is on, else a space). *)
Theorem draw_segment_rows :
  (forall isOn : bool,
     _DrawHorizontalSegment isOn =
       [space] ++ replicate 5 (if isOn then star else space) ++ [space]) /\
  _DrawHorizontalSegment true = lit " ***** " /\
  _DrawHorizontalSegment false = lit "       " /\
  (forall is_left_on is_right_on : bool,
     _DrawVerticalSegment is_left_on is_right_on =
       [if is_left_on then star else space] ++ replicate 5 space
         ++ [if is_right_on then star else space]).
Proof.
  split; [by intros []|]. split; [done|]. split; [done|]. by intros [] [].
Qed.

(** C5. For the Digit with [Top] and [Bottom] on and every other segment
    off, [MakeDigitASCII] returns exactly the glyph whose rows 1 and 7 are
    " ***** " and whose rows 2 to 6 are seven spaces: the rows come in the
    order Top, (TopLeft, TopRight) twice, Middle, (BottomLeft, BottomRight)
    twice, Bottom. *)
Theorem MakeDigitASCII_top_and_bottom s digit :
  ((forall name, segment_state s digit name = Some (top_and_bottom name)) ->
   MakeDigitASCII digit s =
     (Ok (join [LF] [lit " ***** "; lit "       "; lit "       "; lit "       ";
                     lit "       "; lit "       "; lit " ***** "]), s)) /\
  (forall on : SegmentName -> bool,
     (forall name, segment_state s digit name = Some (on name)) ->
     MakeDigitASCII digit s =
       (Ok (join [LF]
              [_DrawHorizontalSegment (on Top);
               _DrawVerticalSegment (on TopLeft) (on TopRight);
               _DrawVerticalSegment (on TopLeft) (on TopRight);
               _DrawHorizontalSegment (on Middle);
               _DrawVerticalSegment (on BottomLeft) (on BottomRight);
               _DrawVerticalSegment (on BottomLeft) (on BottomRight);
               _DrawHorizontalSegment (on Bottom)]), s)).
Proof.
  split.
  - intros Hst. by rewrite MakeDigitASCII_run, (glyph_states _ _ Hst).
  - intros on Hon. by rewrite MakeDigitASCII_run, (glyph_states _ _ Hon).
Qed.

Lemma MakeDigitASCII_top_and_bottom_witness :
  MakeDigitASCII 1 main_store =
    (Ok (join [LF] [lit " ***** "; lit "       "; lit "       "; lit "       ";
                    lit "       "; lit "       "; lit " ***** "]), main_store).
Proof.
  apply (proj1 (MakeDigitASCII_top_and_bottom main_store 1)).
  intros name. destruct name; vm_compute; reflexivity.
Defined.

(** C6. For every Display in every starting configuration, [ClearDisplay]
    does not fail, and afterwards every Segment of every Digit of the display
    is off; on a display whose digit list is empty, or whose digits have
    empty segment maps, it changes nothing. *)
Theorem ClearDisplay_all_off s display :
  exists s',
    ClearDisplay display s = (Ok tt, s') /\
    (forall digit name r,
       digit ∈ display_digits s' display ->
       segments (digit_at s' digit) !! name = Some r ->
       isOn (segment_at s' r) = false) /\
    (display_digits s display = [] \/
     (forall digit, digit ∈ display_digits s display ->
                    segments (digit_at s digit) = ∅) ->
     s' = s).
Proof.
  destruct (ClearDisplay_run display s) as (s' & Hrun & Hoff).
  exists s'. split; [done|]. split.
  - intros digit name r Hdigit Hr.
    pose proof (elem_of_display_segments _ _ _ _ _ Hdigit Hr) as Hin.
    rewrite (turned_off_display_segments _ _ _ _ Hoff) in Hin.
    destruct Hoff as (_ & _ & _ & Hseg). rewrite Hseg.
    by destruct (decide (r ∈ display_segments s display)).
  - intros Hempty.
    assert (ClearDisplay display s = (Ok tt, s)) as Hnoop.
    { unfold ClearDisplay, bind at 1, bind at 1, get_display, get_list.
      apply clear_digits_noop. fold (display_digits s display).
      destruct Hempty as [-> | Hempty]; [|done].
      intros digit Hdigit. by apply elem_of_nil in Hdigit. }
    congruence.
Qed.

Lemma ClearDisplay_all_off_witness :
  exists s',
    ClearDisplay 0 main_store = (Ok tt, s') /\
    isOn (segment_at s' 0) = false /\
    isOn (segment_at s' 10) = false /\
    (ClearDisplay 1 main_store).2 = main_store.
Proof.
  destruct (ClearDisplay_all_off main_store 0) as (s' & Hrun & Hoff & _).
  exists s'. split; [exact Hrun|].
  assert (forall r, digit_at s' r = digit_at main_store r /\
                    display_digits s' 0 = [0; 1]) as Hsame.
  { intros r. revert Hrun. vm_compute. by intros [= <-]. }
  split; [|split].
  - apply (Hoff 0 Top 0).
    + rewrite (proj2 (Hsame 0)). left.
    + rewrite (proj1 (Hsame 0)). by vm_compute.
  - apply (Hoff 1 Bottom 10).
    + rewrite (proj2 (Hsame 0)). right; left.
    + rewrite (proj1 (Hsame 1)). by vm_compute.
  - destruct (ClearDisplay_all_off main_store 1) as (s1 & Hrun1 & _ & Hnoop).
    rewrite Hrun1. apply Hnoop. left. reflexivity.
Defined.

(** C7. [MakeDigitsASCII] of the empty digit list returns the empty string
    for every [gapSpaces], and [CombineDigitASCIIStrings] of an empty block
    list returns the empty string. *)
Theorem empty_inputs s digit_list gapSpaces :
  (list_at s digit_list = [] ->
   MakeDigitsASCII digit_list gapSpaces s = (Ok (empty), s)) /\
  CombineDigitASCIIStrings [] gapSpaces = Ok (empty).
Proof.
  split; [|done]. intros Hempty. by rewrite MakeDigitsASCII_run, Hempty.
Qed.

Lemma empty_inputs_witness :
  MakeDigitsASCII 1 2 main_store = (Ok (empty), main_store).
Proof. apply (proj1 (empty_inputs main_store 1 2)). reflexivity. Defined.

(** C8. [ClearDisplay] is idempotent: for every Display, a second call right
    after the first succeeds and leaves every object as the first call left
    it, with every Segment of the display off. *)
Theorem ClearDisplay_idempotent s display :
  exists s1 s2,
    ClearDisplay display s = (Ok tt, s1) /\
    ClearDisplay display s1 = (Ok tt, s2) /\
    same_objects s1 s2 /\
    forall r, r ∈ display_segments s2 display -> isOn (segment_at s2 r) = false.
Proof.
  destruct (ClearDisplay_run display s) as (s1 & Hrun1 & Hoff1).
  destruct (ClearDisplay_run display s1) as (s2 & Hrun2 & Hoff2).
  exists s1, s2. split; [done|]. split; [done|].
  rewrite (turned_off_display_segments _ _ _ _ Hoff2).
  rewrite (turned_off_display_segments _ _ _ _ Hoff1) in *.
  destruct Hoff1 as (Hd1 & Hl1 & Hp1 & Hs1), Hoff2 as (Hd2 & Hl2 & Hp2 & Hs2).
  split; [repeat split; try congruence|].
  - intros r. rewrite Hs2, Hs1.
    by destruct (decide (r ∈ display_segments s display)).
  - intros r Hr. rewrite Hs2.
    by destruct (decide (r ∈ display_segments s display)).
Qed.

Lemma ClearDisplay_idempotent_witness :
  exists s1 s2,
    ClearDisplay 0 main_store = (Ok tt, s1) /\
    ClearDisplay 0 s1 = (Ok tt, s2) /\
    same_objects s1 s2.
Proof.
  destruct (ClearDisplay_idempotent main_store 0) as (s1 & s2 & Hrun1 & Hrun2 & Hsame & _).
  exists s1, s2. split; [exact Hrun1|]. split; [exact Hrun2|exact Hsame].
Defined.

(** C9. [MakeDigitASCII], [MakeDigitsASCII] and [CombineDigitASCIIStrings]
    are pure.  Whatever they return or raise, the store afterwards is the
    store before: every Segment's [isOn], every Digit's color and segment
    map, and every digit list are unchanged.  Their value is determined by
    their arguments: [MakeDigitASCII] by the segment states of its digit,
    [MakeDigitsASCII] by its list, the segment states of the digits in it
    and [gapSpaces], and [CombineDigitASCIIStrings] by its blocks and
    [gapSpaces], whatever the store. *)
Theorem renderers_pure s :
  (forall digit, (MakeDigitASCII digit s).2 = s) /\
  (forall digit_list gapSpaces, (MakeDigitsASCII digit_list gapSpaces s).2 = s) /\
  (forall blocks gapSpaces,
     lift (CombineDigitASCIIStrings blocks gapSpaces) s =
       (CombineDigitASCIIStrings blocks gapSpaces, s)) /\
  (forall s' digit,
     (forall name, segment_state s' digit name = segment_state s digit name) ->
     (MakeDigitASCII digit s').1 = (MakeDigitASCII digit s).1) /\
  (forall s' digit_list gapSpaces,
     list_at s' digit_list = list_at s digit_list ->
     (forall digit name, digit ∈ list_at s digit_list ->
                         segment_state s' digit name = segment_state s digit name) ->
     (MakeDigitsASCII digit_list gapSpaces s').1 =
       (MakeDigitsASCII digit_list gapSpaces s).1).
Proof.
  split; [intros digit; by rewrite MakeDigitASCII_run|].
  split; [intros digit_list gapSpaces; by rewrite MakeDigitsASCII_run|].
  split; [done|]. split.
  - intros s' digit Hst. rewrite !MakeDigitASCII_run. by apply glyph_ext.
  - intros s' digit_list gapSpaces Hlist Hst. rewrite !MakeDigitsASCII_run.
    cbn [fst]. rewrite Hlist.
    rewrite (rmap_ext (fun digit => glyph (segment_state s' digit))
                      (fun digit => glyph (segment_state s digit))); [done|].
    intros digit Hdigit. apply glyph_ext. intros name. by apply Hst.
Qed.

Lemma renderers_pure_witness :
  (MakeDigitASCII 0 other_store).1 = (MakeDigitASCII 0 main_store).1 /\
  (MakeDigitsASCII 0 2 other_store).1 = (MakeDigitsASCII 0 2 main_store).1.
Proof.
  destruct (renderers_pure main_store) as (_ & _ & _ & Hdigit & Hdigits).
  split.
  - apply (Hdigit other_store 0). intros name. destruct name; vm_compute; reflexivity.
  - apply (Hdigits other_store 0 2%Z); [reflexivity|].
    intros digit name Hdigit0.
    apply elem_of_cons in Hdigit0 as [->|Hdigit0];
      [destruct name; vm_compute; reflexivity|].
    apply list_elem_of_singleton in Hdigit0 as ->.
    destruct name; vm_compute; reflexivity.
Defined.




(** * Further properties *)

(** ** [MakeDigitASCII]: missing keys, and what a glyph tells *)

(** X1. [MakeDigitASCII] raises exactly when the segment map lacks a key:
    it raises [KeyError] for the first missing key in the order Top, TopLeft,
    TopRight, Middle, BottomLeft, BottomRight, Bottom, and returns the glyph
    when no key is missing.  The store is the same afterwards either way. *)
Theorem MakeDigitASCII_first_missing s digit :
  MakeDigitASCII digit s =
    (match first_missing (segments (digit_at s digit)) with
     | Some key => Raise (KeyError key)
     | None => Ok (join [LF] (glyph_rows (isOn_of s digit)))
     end, s).
Proof.
  rewrite MakeDigitASCII_run. f_equal.
  unfold first_missing, read_order, glyph, glyph_rows, isOn_of, state_isOn,
    segment_state, missing. cbn [find].
  destruct (segments (digit_at s digit) !! Top); [|done].
  destruct (segments (digit_at s digit) !! TopLeft); [|done].
  destruct (segments (digit_at s digit) !! TopRight); [|done].
  destruct (segments (digit_at s digit) !! Middle); [|done].
  destruct (segments (digit_at s digit) !! BottomLeft); [|done].
  destruct (segments (digit_at s digit) !! BottomRight); [|done].
  by destruct (segments (digit_at s digit) !! Bottom).
Qed.

Lemma _DrawHorizontalSegment_inj on on' :
  _DrawHorizontalSegment on = _DrawHorizontalSegment on' -> on = on'.
Proof. by destruct on, on'. Qed.

Lemma _DrawVerticalSegment_inj l r l' r' :
  _DrawVerticalSegment l r = _DrawVerticalSegment l' r' -> l = l' /\ r = r'.
Proof. by destruct l, r, l', r'. Qed.

Lemma glyph_rows_inj on on' :
  glyph_rows on = glyph_rows on' -> forall name, on name = on' name.
Proof.
  intros Hrows.
  assert (forall i, nth i (glyph_rows on) [] = nth i (glyph_rows on') []) as Hrow
    by (intros i; by rewrite Hrows).
  pose proof (_DrawHorizontalSegment_inj _ _ (Hrow 0)) as Htop.
  pose proof (_DrawVerticalSegment_inj _ _ _ _ (Hrow 1)) as [Htl Htr].
  pose proof (_DrawHorizontalSegment_inj _ _ (Hrow 3)) as Hmid.
  pose proof (_DrawVerticalSegment_inj _ _ _ _ (Hrow 4)) as [Hbl Hbr].
  pose proof (_DrawHorizontalSegment_inj _ _ (Hrow 6)) as Hbot.
  by intros [].
Qed.

(** X2. The glyph determines the segments: two well-formed digits (of the
    same or of different stores) for which [MakeDigitASCII] returns the same
    text have the same state at each of the seven segments. *)
Theorem MakeDigitASCII_injective s digit s' digit' :
  well_formed s digit ->
  well_formed s' digit' ->
  (MakeDigitASCII digit s).1 = (MakeDigitASCII digit' s').1 ->
  forall name, segment_state s digit name = segment_state s' digit' name.
Proof.
  intros Hwf Hwf'.
  rewrite (MakeDigitASCII_well_formed _ _ Hwf), (MakeDigitASCII_well_formed _ _ Hwf').
  cbn [fst]. intros Htext name.
  apply (f_equal (fun r => match r with Ok text => split LF text | Raise _ => [] end))
    in Htext.
  rewrite !split_glyph in Htext.
  rewrite (well_formed_states _ _ Hwf), (well_formed_states _ _ Hwf').
  f_equal. by apply glyph_rows_inj.
Qed.

Lemma MakeDigitASCII_injective_witness :
  segment_state main_store 0 Top = segment_state other_store 0 Top /\
  segment_state main_store 0 Middle = segment_state other_store 0 Middle.
Proof.
  split.
  - apply (MakeDigitASCII_injective main_store 0 other_store 0).
    + intros name. destruct name; vm_compute; eauto.
    + intros name. destruct name; vm_compute; eauto.
    + vm_compute. reflexivity.
  - apply (MakeDigitASCII_injective main_store 0 other_store 0).
    + intros name. destruct name; vm_compute; eauto.
    + intros name. destruct name; vm_compute; eauto.
    + vm_compute. reflexivity.
Defined.

(** ** [CombineDigitASCIIStrings] on blocks of rows *)


Lemma Forall_join (P : char -> Prop) sep parts :
  Forall P sep -> Forall (Forall P) parts -> Forall P (join sep parts).
Proof.
  intros Hsep Hparts. induction Hparts as [|p parts Hp Hparts IH]; [constructor 1|].
  destruct parts as [|q parts]; [done|].
  change (join sep (p :: q :: parts)) with (p ++ sep ++ join sep (q :: parts)).
  rewrite !Forall_app. auto.
Qed.









(** When every block is the newline-join of its rows and all have as many
    rows as the first, the result is the newline-join of the stitched rows. *)
Lemma CombineDigitASCIIStrings_block_rows rows0 rowss gapSpaces :
  index_sized gapSpaces = true ->
  Forall block_rows (rows0 :: rowss) ->
  Forall (fun rows => length rows = length rows0) rowss ->
  CombineDigitASCIIStrings (map (join [LF]) (rows0 :: rowss)) gapSpaces =
    Ok (join [LF] (stitch (spaces gapSpaces) (rows0 :: rowss) (length rows0))).
Proof.
  intros Hfit Hblocks Hlens.
  assert (forall rows, rows ∈ rows0 :: rowss ->
            splitlines (join [LF] rows) = rows) as Hsplit.
  { intros rows Hrows. rewrite Forall_forall in Hblocks.
    destruct (Hblocks _ Hrows). by apply splitlines_join. }
  rewrite (CombineDigitASCIIStrings_spec _ _ Hfit).
  rewrite (proj2 (same_row_count_true _)).
  - unfold combined_block, stitch, row_count, block_row. cbn [map hd].
    rewrite (Hsplit rows0) by left. do 2 f_equal.
    apply map_ext_in. intros i _. do 2 f_equal.
    rewrite map_map. apply map_ext_in. intros rows Hrows.
    rewrite Hsplit; [done|]. right. by apply list_elem_of_In.
  - intros block Hblock. unfold row_count. cbn [map hd].
    rewrite (Hsplit rows0) by left.
    apply list_elem_of_fmap in Hblock as (rows & -> & Hrows).
    rewrite (Hsplit _ Hrows).
    apply elem_of_cons in Hrows as [->|Hrows]; [done|].
    rewrite Forall_forall in Hlens. by apply Hlens.
Qed.






(** ** [MakeDigitsASCII] on any number of digits *)

Lemma glyph_rows_block_rows on : block_rows (glyph_rows on).
Proof.
  split.
  - eapply Forall_impl; [apply glyph_rows_glyph_row|]. apply glyph_row_no_linebreak.
  - cbn [glyph_rows last]. unfold _DrawHorizontalSegment. intros [=].
Qed.

Lemma glyph_rows_nth on i : i < 7 -> glyph_row (nth i (glyph_rows on) []).
Proof.
  intros Hi. pose proof (glyph_rows_glyph_row on) as Hrows.
  rewrite Forall_forall in Hrows. by apply Hrows, list_elem_of_In, nth_In.
Qed.

(** The texts of a successful list comprehension over [MakeDigitASCII] are
    glyphs, one for each digit. *)
Lemma rmap_glyph_Ok st (digit_refs : list ref) texts :
  rmap (fun digit => glyph (st digit)) digit_refs = Ok texts ->
  exists ons, texts = map (fun on => join [LF] (glyph_rows on)) ons /\
              length ons = length digit_refs.
Proof.
  revert texts. induction digit_refs as [|digit digit_refs IH]; intros texts.
  - intros [= <-]. by exists [].
  - cbn [rmap]. destruct (glyph (st digit)) as [text|e] eqn:Hglyph; [|done].
    cbn [rbind]. destruct (rmap _ digit_refs) as [texts'|e]; [|done].
    cbn [rbind]. intros Htexts.
    destruct (IH texts' eq_refl) as (ons & -> & Hlen).
    apply glyph_Ok in Hglyph as [on ->].
    exists (on :: ons). split; [|by cbn; rewrite Hlen].
    by injection Htexts as <-.
Qed.

(** Whatever [MakeDigitsASCII] returns is empty (for the empty list) or seven
    stitched rows of glyphs. *)
Lemma MakeDigitsASCII_Ok s digit_list gapSpaces text :
  (MakeDigitsASCII digit_list gapSpaces s).1 = Ok text ->
  (text = [] /\ list_at s digit_list = []) \/
  exists on ons,
    length (on :: ons) = length (list_at s digit_list) /\
    text = join [LF] (stitch (spaces gapSpaces) (map glyph_rows (on :: ons)) 7).
Proof.
  rewrite MakeDigitsASCII_run. cbn [fst].
  destruct (rmap _ (list_at s digit_list)) as [texts|e] eqn:Htexts; [|done].
  apply rmap_glyph_Ok in Htexts as (ons & -> & Hlen). cbn [rbind].
  destruct ons as [|on ons].
  - intros [= <-]. left. split; [done|].
    by destruct (list_at s digit_list).
  - destruct (index_sized gapSpaces) eqn:Hfit;
      [|by rewrite (CombineDigitASCIIStrings_overflow _ _ Hfit)].
    rewrite <- (map_map glyph_rows (join [LF])).
    change (map glyph_rows (on :: ons)) with (glyph_rows on :: map glyph_rows ons).
    rewrite CombineDigitASCIIStrings_block_rows; [|done| |].
    + intros Htext. right. exists on, ons. split; [done|].
      apply (f_equal (fun r => match r with Ok t => t | Raise _ => [] end)) in Htext.
      by rewrite <- Htext.
    + change (glyph_rows on :: map glyph_rows ons) with (map glyph_rows (on :: ons)).
      apply Forall_forall. intros rows Hrows.
      apply list_elem_of_fmap in Hrows as (on' & -> & _). apply glyph_rows_block_rows.
    + apply Forall_forall. intros rows Hrows.
      by apply list_elem_of_fmap in Hrows as (on' & -> & _).
Qed.




(** X6. [MakeDigitsASCII] never returns the sentinel: whatever the store,
    the list and [gapSpaces], the row-count check of
    [CombineDigitASCIIStrings] cannot fire on glyphs that [MakeDigitASCII]
    rendered.  The only failure of [MakeDigitsASCII] is an exception. *)
Theorem MakeDigitsASCII_never_sentinel s digit_list gapSpaces :
  (MakeDigitsASCII digit_list gapSpaces s).1 <> Ok sentinel.
Proof.
  intros Hsentinel.
  apply MakeDigitsASCII_Ok in Hsentinel as [[Hempty _] | (on & ons & _ & Htext)].
  - discriminate.
  - apply sentinel_one_line. rewrite Htext. unfold stitch. cbn [seq map].
    apply elem_of_join_sep. by left.
Qed.

(** X7. Every character that [MakeDigitsASCII] returns is '*', a space or a
    newline, whatever the store, the list and [gapSpaces]. *)
Theorem MakeDigitsASCII_alphabet s digit_list gapSpaces text :
  (MakeDigitsASCII digit_list gapSpaces s).1 = Ok text ->
  Forall glyph_char text.
Proof.
  intros [[-> _] | (on & ons & _ & ->)]%MakeDigitsASCII_Ok; [constructor 1|].
  apply Forall_join; [constructor 2; [by right; right|constructor 1]|].
  unfold stitch. apply Forall_forall. intros row Hrow.
  apply list_elem_of_In, in_map_iff in Hrow as (i & <- & Hi%in_seq).
  apply Forall_join.
  - unfold spaces. apply Forall_replicate. by right; left.
  - apply Forall_forall. intros part Hpart.
    apply list_elem_of_In, in_map_iff in Hpart as (rows & <- & Hrows).
    apply in_map_iff in Hrows as (on' & <- & _).
    destruct (glyph_rows_nth on' i) as [_ Hchars]; [lia|].
    eapply Forall_impl; [exact Hchars|].
    intros c [->| ->]; [by left|by right; left].
Qed.

Lemma MakeDigitsASCII_alphabet_witness :
  Forall glyph_char
    (join [LF] (stitch (spaces 2)
                  [glyph_rows (isOn_of main_store 0); glyph_rows (isOn_of main_store 1)] 7)).
Proof.
  apply (MakeDigitsASCII_alphabet main_store 0 2). vm_compute. reflexivity.
Defined.

Lemma glyph_first_missing s digit key :
  first_missing (segments (digit_at s digit)) = Some key ->
  glyph (segment_state s digit) = Raise (KeyError key).
Proof.
  unfold first_missing, read_order, glyph, state_isOn, segment_state, missing.
  cbn [find].
  destruct (segments (digit_at s digit) !! Top); cbv beta iota; [|by intros [= <-]].
  destruct (segments (digit_at s digit) !! TopLeft); cbv beta iota; [|by intros [= <-]].
  destruct (segments (digit_at s digit) !! TopRight); cbv beta iota; [|by intros [= <-]].
  destruct (segments (digit_at s digit) !! Middle); cbv beta iota; [|by intros [= <-]].
  destruct (segments (digit_at s digit) !! BottomLeft); cbv beta iota; [|by intros [= <-]].
  destruct (segments (digit_at s digit) !! BottomRight); cbv beta iota; [|by intros [= <-]].
  destruct (segments (digit_at s digit) !! Bottom); cbv beta iota; [done|by intros [= <-]].
Qed.

Lemma rmap_first_raise {A B} (f : A -> result B) pre x post e :
  (forall y, y ∈ pre -> exists b, f y = Ok b) ->
  f x = Raise e ->
  rmap f (pre ++ x :: post) = Raise e.
Proof.
  intros Hpre Hx. induction pre as [|y pre IH].
  - cbn [app rmap]. by rewrite Hx.
  - cbn [app rmap]. destruct (Hpre y) as [b ->]; [left|]. cbn [rbind].
    rewrite IH; [done|]. intros z Hz. apply Hpre. by right.
Qed.

(** X8. If the digits before some digit of the list are well-formed and that
    digit lacks a key, [MakeDigitsASCII] raises [KeyError] for the first key
    this digit lacks, in reading order; nothing is combined and the store is
    unchanged. *)
Theorem MakeDigitsASCII_first_malformed s digit_list gapSpaces pre digit post key :
  list_at s digit_list = pre ++ digit :: post ->
  (forall d, d ∈ pre -> well_formed s d) ->
  first_missing (segments (digit_at s digit)) = Some key ->
  MakeDigitsASCII digit_list gapSpaces s = (Raise (KeyError key), s).
Proof.
  intros Hlist Hpre Hkey. rewrite MakeDigitsASCII_run, Hlist.
  rewrite (rmap_first_raise _ pre digit post (KeyError key)); [done| |].
  - intros d Hd. eexists.
    by rewrite (glyph_states _ _ (well_formed_states _ _ (Hpre d Hd))).
  - by apply glyph_first_missing.
Qed.

Lemma MakeDigitsASCII_first_malformed_witness :
  MakeDigitsASCII 0 2 broken_store = (Raise (KeyError Middle), broken_store).
Proof.
  apply (MakeDigitsASCII_first_malformed broken_store 0 2 [0] 1 [] Middle).
  - reflexivity.
  - intros d Hd. apply list_elem_of_singleton in Hd as ->.
    intros name. destruct name; vm_compute; eauto.
  - vm_compute. reflexivity.
Defined.

Lemma CombineDigitASCIIStrings_gap_text blocks gapSpaces gapSpaces' :
  index_sized gapSpaces = true ->
  index_sized gapSpaces' = true ->
  spaces gapSpaces = spaces gapSpaces' ->
  CombineDigitASCIIStrings blocks gapSpaces = CombineDigitASCIIStrings blocks gapSpaces'.
Proof.
  intros Hfit Hfit' Hgap.
  rewrite (CombineDigitASCIIStrings_spec _ _ Hfit), (CombineDigitASCIIStrings_spec _ _ Hfit').
  unfold combined_block. by rewrite Hgap.
Qed.

(** X9. The edges of [gapSpaces].  From -2^63 to 0 it is not an error: both
    [CombineDigitASCIIStrings] and [MakeDigitsASCII] behave as with
    [gapSpaces = 0], setting the rows directly next to each other.  Below
    -2^63 or above 2^63 - 1 it does not fit an index-sized integer:
    [CombineDigitASCIIStrings] raises [OverflowError] on every non-empty
    list, whatever the blocks, and so does [MakeDigitsASCII] on a non-empty
    list of well-formed digits, after rendering them and without changing
    an object. *)
Theorem gap_edge_cases blocks s digit_list gapSpaces :
  ((- maxsize - 1 <= gapSpaces <= 0)%Z ->
   CombineDigitASCIIStrings blocks gapSpaces = CombineDigitASCIIStrings blocks 0 /\
   MakeDigitsASCII digit_list gapSpaces s = MakeDigitsASCII digit_list 0 s) /\
  ((gapSpaces < - maxsize - 1 \/ maxsize < gapSpaces)%Z ->
   (blocks <> [] ->
    CombineDigitASCIIStrings blocks gapSpaces = Raise OverflowError) /\
   (list_at s digit_list <> [] ->
    (forall digit, digit ∈ list_at s digit_list -> well_formed s digit) ->
    MakeDigitsASCII digit_list gapSpaces s = (Raise OverflowError, s))).
Proof.
  split.
  - intros Hgap.
    assert (index_sized gapSpaces = true) as Hfit
      by (apply index_sized_true; unfold maxsize in *; lia).
    assert (spaces gapSpaces = spaces 0) as Hmul.
    { unfold spaces. by rewrite Z2Nat.nonpos by lia. }
    split; [by apply CombineDigitASCIIStrings_gap_text|].
    rewrite !MakeDigitsASCII_run. f_equal.
    destruct (rmap _ _); [|done]. cbn [rbind].
    by apply CombineDigitASCIIStrings_gap_text.
  - intros Hfit%index_sized_false.
    split; [by apply CombineDigitASCIIStrings_overflow|].
    intros Hne Hwf. rewrite MakeDigitsASCII_run. f_equal.
    rewrite (rmap_ok _ (fun digit => join [LF] (glyph_rows (isOn_of s digit)))).
    + cbn [rbind]. apply CombineDigitASCIIStrings_overflow; [done|].
      by destruct (list_at s digit_list).
    + intros digit Hdigit.
      by rewrite (glyph_states _ _ (well_formed_states _ _ (Hwf digit Hdigit))).
Qed.

Lemma gap_edge_cases_witness :
  CombineDigitASCIIStrings [lit "a"; lit "b"] (-3) = Ok (lit "ab") /\
  MakeDigitsASCII 0 (-3) main_store = MakeDigitsASCII 0 0 main_store /\
  CombineDigitASCIIStrings [lit "a"; lit "b"] (- maxsize - 2) = Raise OverflowError /\
  MakeDigitsASCII 0 (maxsize + 1) main_store = (Raise OverflowError, main_store).
Proof.
  destruct (proj1 (gap_edge_cases [lit "a"; lit "b"] main_store 0 (-3)))
    as [Hcombine Hmake]; [by vm_compute|].
  destruct (proj2 (gap_edge_cases [lit "a"; lit "b"] main_store 0 (- maxsize - 2)))
    as [Hlow _]; [left; by vm_compute|].
  destruct (proj2 (gap_edge_cases [lit "a"; lit "b"] main_store 0 (maxsize + 1)))
    as [_ Hhigh]; [right; by vm_compute|].
  split; [rewrite Hcombine; reflexivity|]. split; [exact Hmake|].
  split; [apply Hlow; discriminate|].
  apply Hhigh; [discriminate|].
  intros digit Hdigit name. destruct name; vm_compute; eauto.
Defined.

(** ** [ClearDisplay]: what it leaves alone, and what follows it *)

(** X10. [ClearDisplay] changes nothing but the Segments of the display's
    digits: Digit objects (color and segment map), digit lists and Display
    objects are as before, every Segment that no digit of the display holds
    keeps its state, and no Segment anywhere is turned on. *)
Theorem ClearDisplay_frame s display :
  exists s',
    ClearDisplay display s = (Ok tt, s') /\
    digit_at s' = digit_at s /\
    list_at s' = list_at s /\
    display_at s' = display_at s /\
    (forall r, r ∉ display_segments s display -> segment_at s' r = segment_at s r) /\
    (forall r, isOn (segment_at s' r) = true -> isOn (segment_at s r) = true).
Proof.
  destruct (ClearDisplay_run display s) as (s' & Hrun & Hd & Hl & Hp & Hseg).
  exists s'. repeat (split; [done|]). split.
  - intros r Hr. rewrite Hseg. by destruct (decide (r ∈ display_segments s display)).
  - intros r. rewrite Hseg. by destruct (decide (r ∈ display_segments s display)).
Qed.

Lemma ClearDisplay_frame_witness :
  exists s',
    ClearDisplay 1 main_store = (Ok tt, s') /\
    segment_at s' 7 = segment_at main_store 7.
Proof.
  destruct (ClearDisplay_frame main_store 1) as (s' & Hrun & _ & _ & _ & Hout & _).
  exists s'. split; [exact Hrun|]. apply Hout.
  apply (bool_decide_unpack _). by vm_compute.
Defined.

(** X11. Clearing reaches a Segment through every alias: when a digit, of
    the display or not, holds under some name a Segment object that a digit
    of the display holds too, that segment of it is off after
    [ClearDisplay]. *)
Theorem ClearDisplay_shared_segment s display digit name r :
  segments (digit_at s digit) !! name = Some r ->
  r ∈ display_segments s display ->
  exists s',
    ClearDisplay display s = (Ok tt, s') /\
    segment_state s' digit name = Some false.
Proof.
  intros Hr Hin.
  destruct (ClearDisplay_run display s) as (s' & Hrun & Hd & _ & _ & Hseg).
  exists s'. split; [done|].
  unfold segment_state. rewrite Hd, Hr, Hseg.
  by destruct (decide (r ∈ display_segments s display)).
Qed.

Lemma ClearDisplay_shared_segment_witness :
  segment_state shared_store 2 Top = Some true /\
  exists s',
    ClearDisplay 0 shared_store = (Ok tt, s') /\
    segment_state s' 2 Top = Some false.
Proof.
  split; [by vm_compute|].
  apply (ClearDisplay_shared_segment shared_store 0 2 Top 0).
  - by vm_compute.
  - apply (bool_decide_unpack _). by vm_compute.
Defined.

Lemma blank_glyph_rows : join [LF] (glyph_rows (fun _ => false)) = blank_glyph.
Proof. reflexivity. Qed.

(** X12. After [ClearDisplay], [MakeDigitASCII] of every well-formed digit
    of the display returns the blank glyph: seven rows of seven spaces. *)
Theorem ClearDisplay_then_MakeDigitASCII s display digit :
  digit ∈ display_digits s display ->
  well_formed s digit ->
  exists s',
    ClearDisplay display s = (Ok tt, s') /\
    (ClearDisplay display ;;; MakeDigitASCII digit)%M s = (Ok blank_glyph, s').
Proof.
  intros Hdigit Hwf.
  destruct (ClearDisplay_run display s) as (s' & Hrun & Hd & _ & _ & Hseg).
  exists s'. split; [done|].
  unfold bind. rewrite Hrun, MakeDigitASCII_run. f_equal.
  rewrite <- blank_glyph_rows. apply glyph_states. intros name.
  unfold segment_state. rewrite Hd.
  destruct (Hwf name) as [r Hr]. rewrite Hr, Hseg.
  destruct (decide (r ∈ display_segments s display)) as [|Hout]; [done|].
  destruct Hout. by eapply elem_of_display_segments.
Qed.

Lemma ClearDisplay_then_MakeDigitASCII_witness :
  exists s',
    ClearDisplay 0 main_store = (Ok tt, s') /\
    (ClearDisplay 0 ;;; MakeDigitASCII 1)%M main_store = (Ok blank_glyph, s').
Proof.
  apply (ClearDisplay_then_MakeDigitASCII main_store 0 1).
  - right; left.
  - intros name. destruct name; vm_compute; eauto.
Defined.

(** X13. Clearing two displays one after the other gives the same objects in
    either order, also when the displays share digits or Segments. *)
Theorem ClearDisplay_commute s display1 display2 :
  exists s12 s21,
    (ClearDisplay display1 ;;; ClearDisplay display2)%M s = (Ok tt, s12) /\
    (ClearDisplay display2 ;;; ClearDisplay display1)%M s = (Ok tt, s21) /\
    same_objects s12 s21.
Proof.
  destruct (ClearDisplay_run display1 s) as (s1 & Hrun1 & Hoff1).
  destruct (ClearDisplay_run display2 s1) as (s12 & Hrun12 & Hoff12).
  destruct (ClearDisplay_run display2 s) as (s2 & Hrun2 & Hoff2).
  destruct (ClearDisplay_run display1 s2) as (s21 & Hrun21 & Hoff21).
  rewrite (turned_off_display_segments _ _ _ _ Hoff1) in Hoff12.
  rewrite (turned_off_display_segments _ _ _ _ Hoff2) in Hoff21.
  exists s12, s21.
  split; [unfold bind; by rewrite Hrun1|]. split; [unfold bind; by rewrite Hrun2|].
  destruct (turned_off_app _ _ _ _ _ Hoff1 Hoff12) as (Hd12 & Hl12 & Hp12 & Hs12).
  destruct (turned_off_app _ _ _ _ _ Hoff2 Hoff21) as (Hd21 & Hl21 & Hp21 & Hs21).
  repeat split; try congruence.
  intros r. rewrite Hs12, Hs21.
  destruct (decide (r ∈ display_segments s display1 ++ display_segments s display2))
    as [Hin|Hin]; rewrite elem_of_app in Hin;
    destruct (decide (r ∈ display_segments s display2 ++ display_segments s display1))
      as [Hin'|Hin']; rewrite elem_of_app in Hin'; tauto.
Qed.

(** ** Assigning to a segment *)

Lemma set_segment_run s digit name v :
  set_segment digit name v s =
    match segments (digit_at s digit) !! name with
    | Some r => set_isOn r v s
    | None => (Raise (KeyError name), s)
    end.
Proof.
  unfold set_segment, bind, get_digit, lift, dict_getitem.
  by destruct (segments (digit_at s digit) !! name).
Qed.

Lemma set_isOn_read s r v digit name r' :
  segments (digit_at s digit) !! name = Some r' ->
  segment_state (set_isOn r v s).2 digit name =
    Some (if decide (r' = r) then v else isOn (segment_at s r')).
Proof.
  intros Hr'. unfold segment_state. cbn [set_isOn snd digit_at segment_at].
  rewrite Hr'. by destruct (decide (r' = r)).
Qed.

(** X15. On a well-formed digit whose seven Segments are distinct objects,
    assigning [v] to the segment [name] and then rendering gives the glyph of
    the old states with [name] replaced by [v]: only the rows that read
    [name] can change. *)
Theorem set_segment_then_MakeDigitASCII s digit name v :
  well_formed s digit ->
  (forall name1 name2 r,
     segments (digit_at s digit) !! name1 = Some r ->
     segments (digit_at s digit) !! name2 = Some r ->
     name1 = name2) ->
  exists s',
    set_segment digit name v s = (Ok tt, s') /\
    (set_segment digit name v ;;; MakeDigitASCII digit)%M s =
      (Ok (join [LF]
             (glyph_rows (fun name' => if decide (name' = name) then v
                                       else isOn_of s digit name'))), s').
Proof.
  intros Hwf Hdistinct. destruct (Hwf name) as [r Hr].
  assert (set_segment digit name v s = set_isOn r v s) as Hrun
    by (by rewrite set_segment_run, Hr).
  exists (set_isOn r v s).2. split; [by rewrite Hrun|].
  unfold bind. rewrite Hrun. set (s' := (set_isOn r v s).2).
  change (set_isOn r v s) with (Ok tt, s'). cbv beta iota.
  rewrite MakeDigitASCII_run. f_equal.
  apply glyph_states. intros name'.
  destruct (Hwf name') as [r' Hr']. subst s'.
  rewrite (set_isOn_read s r v _ _ _ Hr'). f_equal.
  destruct (decide (r' = r)) as [->|Hne], (decide (name' = name)) as [->|Hname];
    try done.
  - destruct Hname. by eapply Hdistinct.
  - congruence.
  - unfold isOn_of, segment_state. by rewrite Hr'.
Qed.

Lemma set_segment_then_MakeDigitASCII_witness :
  exists s',
    set_segment 0 Bottom true main_store = (Ok tt, s') /\
    (set_segment 0 Bottom true ;;; MakeDigitASCII 0)%M main_store =
      (Ok (join [LF] [lit " ***** "; lit "       "; lit "       "; lit "       ";
                      lit "       "; lit "       "; lit " ***** "]), s').
Proof.
  apply (set_segment_then_MakeDigitASCII main_store 0 Bottom true).
  - intros name. destruct name; vm_compute; eauto.
  - intros name1 name2 r. destruct name1, name2; vm_compute; congruence.
Defined.

(** ** Constructing a digit *)

(** The default factory makes the seven Segments at the next seven
    references, in the order of the enumeration. *)
Lemma new_segments_all_names h :
  new_segments all_names ∅ h =
    (<[Middle := 6 + segments_made h]> (<[TopLeft := 5 + segments_made h]>
      (<[BottomLeft := 4 + segments_made h]> (<[Bottom := 3 + segments_made h]>
       (<[BottomRight := 2 + segments_made h]> (<[TopRight := 1 + segments_made h]>
        (<[Top := segments_made h]> ∅)))))),
     {| objects :=
          (for_each (seq (segments_made h) 7 : list ref)
             (fun segment => set_isOn segment false) (objects h)).2;
        segments_made := 7 + segments_made h;
        digits_made := digits_made h |}).
Proof. reflexivity. Qed.

(** X16. [Digit()] yields a new, well-formed digit: it is none of the Digits
    made before, its color is "white", its segment map has all seven keys,
    each bound to a Segment made by this call, no two keys to the same one,
    every segment is off, and it renders as the blank glyph.  The Digits and
    Segments made before, the lists and the Displays are untouched. *)
Theorem new_Digit_default h :
  exists d h',
    new_Digit h = (d, h') /\
    d = digits_made h /\
    digits_made h' = S (digits_made h) /\
    segments_made h' = 7 + segments_made h /\
    color (digit_at (objects h') d) = lit "white" /\
    (forall name, exists r,
       segments (digit_at (objects h') d) !! name = Some r /\
       segments_made h <= r < segments_made h') /\
    (forall name1 name2 r,
       segments (digit_at (objects h') d) !! name1 = Some r ->
       segments (digit_at (objects h') d) !! name2 = Some r ->
       name1 = name2) /\
    (forall name, segment_state (objects h') d name = Some false) /\
    MakeDigitASCII d (objects h') = (Ok blank_glyph, objects h') /\
    (forall d', d' < digits_made h ->
                digit_at (objects h') d' = digit_at (objects h) d') /\
    (forall r, r < segments_made h ->
               segment_at (objects h') r = segment_at (objects h) r) /\
    list_at (objects h') = list_at (objects h) /\
    display_at (objects h') = display_at (objects h).
Proof.
  unfold new_Digit. rewrite new_segments_all_names.
  set (n := segments_made h). set (segs := <[Middle := _]> _).
  destruct (clear_segments (seq n 7) (objects h)) as (s1 & Hrun & Hd & Hl & Hp & Hseg).
  rewrite Hrun. cbn [snd].
  eexists _, _. split; [reflexivity|].
  cbn [objects segments_made digits_made put_digit snd digit_at segment_at
         list_at display_at].
  rewrite decide_True by done. cbn [color segments].
  assert (forall name,
            exists r : ref, segs !! name = Some r /\ n <= r < 7 + n /\
                      r = Pos.to_nat (SegmentName_value name) - 1 + n) as Hkeys.
  { intros name. unfold segs.
    destruct name; simplify_map_eq; eexists; (split; [reflexivity|]);
      cbn; lia. }
  assert (forall name,
            segment_state
              {| segment_at := segment_at s1;
                 digit_at := fun d' =>
                   if decide (d' = digits_made h)
                   then {| color := lit "white"; segments := segs |}
                   else digit_at s1 d';
                 list_at := list_at s1;
                 display_at := display_at s1 |}
              (digits_made h) name = Some false) as Hoff.
  { intros name. unfold segment_state. cbn [digit_at segment_at].
    rewrite decide_True by done. cbn [segments].
    destruct (Hkeys name) as (r & -> & Hr & _). rewrite Hseg.
    rewrite decide_True; [done|]. apply elem_of_seq. lia. }
  split; [done|]. split; [done|]. split; [done|]. split; [done|].
  split; [intros name; destruct (Hkeys name) as (r & ? & ? & _); eauto|].
  split.
  { intros name1 name2 r Hr1 Hr2.
    destruct (Hkeys name1) as (r1 & Hr1' & _ & Heq1).
    destruct (Hkeys name2) as (r2 & Hr2' & _ & Heq2).
    assert (r1 = r2) by congruence.
    destruct name1, name2; try done; cbn in Heq1, Heq2; lia. }
  split; [exact Hoff|]. split.
  { rewrite MakeDigitASCII_run. f_equal. rewrite <- blank_glyph_rows.
    apply glyph_states. exact Hoff. }
  split.
  { intros d' Hd'. rewrite decide_False by lia. by rewrite Hd. }
  split.
  { intros r Hr. rewrite Hseg. rewrite decide_False; [done|].
    rewrite elem_of_seq. lia. }
  done.
Qed.

Lemma new_Digit_default_witness :
  exists d h',
    new_Digit main_heap = (d, h') /\
    d = 2 /\
    digit_at (objects h') 1 = digit_at main_store 1 /\
    segment_at (objects h') 10 = segment_at main_store 10.
Proof.
  destruct (new_Digit_default main_heap)
    as (d & h' & Hrun & Hd & _ & _ & _ & _ & _ & _ & _ & Hdigits & Hsegments & _).
  exists d, h'. split; [exact Hrun|]. split; [exact Hd|]. split.
  - apply Hdigits. cbn. lia.
  - apply Hsegments. cbn. lia.
Defined.
